(** * Verification of the six-digit transform of [functions/crypto.py]

    The development embeds the three functions of the module
    ([swap_digits], [encrypt_number], [decrypt_number]) together with the
    Python built-ins they call, and settles the properties the specification
    states about them. It then covers the two page handlers that call the
    transform and the two centring functions of [functions/utils.py]. *)

From Stdlib Require Import ZArith NArith String Ascii.
From stdpp Require Import base list gmap pretty.

Local Open Scope Z_scope.

(** ** Outcomes of a Python call *)

(** The exceptions the embedded code can raise. *)
Inductive exn : Type :=
  | ValueError
  | IndexError.

(** A call either returns a value or raises. *)
Inductive res (A : Type) : Type :=
  | Ok (a : A)
  | Raise (e : exn).
Arguments Ok {A} a.
Arguments Raise {A} e.

#[global] Instance res_ret : MRet res := @Ok.
#[global] Instance res_bind : MBind res := λ A B f m,
  match m with
  | Ok a => f a
  | Raise e => Raise e
  end.
#[global] Instance res_fmap : FMap res := λ A B f m,
  match m with
  | Ok a => Ok (f a)
  | Raise e => Raise e
  end.

(** ** Python strings *)

(** A [str] is a sequence of Unicode code points. *)
Definition char : Type := N.
Definition pystr : Type := list char.

(** Code points of a literal; used for ASCII literals only. *)
Fixpoint of_string (s : string) : pystr :=
  match s with
  | EmptyString => []
  | String a s' => N_of_ascii a :: of_string s'
  end.

Module Unicode.

(** Code points of the digit zero of every run of ten characters whose
    Numeric_Type is Decimal (Unicode 14.0, the database of CPython 3.11).
    The mathematical digits U+1D7CE..U+1D7FF are five such runs. *)
Definition decimal_zeros : list N :=
  [ 0x30; 0x660; 0x6f0; 0x7c0; 0x966; 0x9e6; 0xa66; 0xae6; 0xb66; 0xbe6;
    0xc66; 0xce6; 0xd66; 0xde6; 0xe50; 0xed0; 0xf20; 0x1040; 0x1090;
    0x17e0; 0x1810; 0x1946; 0x19d0; 0x1a80; 0x1a90; 0x1b50; 0x1bb0;
    0x1c40; 0x1c50; 0xa620; 0xa8d0; 0xa900; 0xa9d0; 0xa9f0; 0xaa50;
    0xabf0; 0xff10; 0x104a0; 0x10d30; 0x11066; 0x110f0; 0x11136; 0x111d0;
    0x112f0; 0x11450; 0x114d0; 0x11650; 0x116c0; 0x11730; 0x118e0;
    0x11950; 0x11c50; 0x11d50; 0x11da0; 0x16a60; 0x16ac0; 0x16b50;
    0x1d7ce; 0x1d7d8; 0x1d7e2; 0x1d7ec; 0x1d7f6;
    0x1e140; 0x1e2f0; 0x1e950; 0x1fbf0 ]%N.

(** Inclusive ranges of the characters whose Numeric_Type is Digit but
    not Decimal: superscripts, subscripts, circled digits and the like. *)
Definition digit_ranges : list (N * N) :=
  [ (0xb2, 0xb3); (0xb9, 0xb9); (0x1369, 0x1371); (0x19da, 0x19da);
    (0x2070, 0x2070); (0x2074, 0x2079); (0x2080, 0x2089);
    (0x2460, 0x2468); (0x2474, 0x247c); (0x2488, 0x2490);
    (0x24ea, 0x24ea); (0x24f5, 0x24fd); (0x24ff, 0x24ff);
    (0x2776, 0x277e); (0x2780, 0x2788); (0x278a, 0x2792);
    (0x10a40, 0x10a43); (0x10e60, 0x10e68); (0x11052, 0x1105a);
    (0x1f100, 0x1f10a) ]%N.

(** The decimal value of a character, when it has one. *)
Fixpoint decimal_in (zeros : list N) (c : char) : option Z :=
  match zeros with
  | [] => None
  | z :: zeros' =>
      if ((z <=? c) && (c <? z + 10))%N then Some (Z.of_N (c - z))
      else decimal_in zeros' c
  end.

Definition decimal (c : char) : option Z := decimal_in decimal_zeros c.

Definition in_range (c : char) (r : N * N) : bool :=
  ((r.1 <=? c) && (c <=? r.2))%N.

(** Numeric_Type is Digit or Decimal. *)
Definition is_digit (c : char) : bool :=
  match decimal c with
  | Some _ => true
  | None => existsb (in_range c) digit_ranges
  end.

End Unicode.

(** ** The built-ins the module calls *)

(** [s.isdigit()]: at least one character, and all of them digits. *)
Definition str_isdigit (s : pystr) : bool :=
  match s with
  | [] => false
  | _ => forallb Unicode.is_digit s
  end.

(** [int(d)] for a one-character string [d], as produced by iterating a
    [str]: the decimal value of the character, [ValueError] without one. *)
Definition int_char (d : char) : res Z :=
  match Unicode.decimal d with
  | Some v => Ok v
  | None => Raise ValueError
  end.

(** [str(d)] for an integer [d]. *)
Definition str_of_int (d : Z) : pystr := of_string (pretty d).

(** ["".join(parts)]. *)
Definition str_join (parts : list pystr) : pystr := concat parts.

(** [l[i]] as an expression, for a non-negative constant index. *)
Definition getitem {A} (l : list A) (i : nat) : res A :=
  match l !! i with
  | Some a => Ok a
  | None => Raise IndexError
  end.

(** [l[i] = a], on the value of the list. *)
Definition setitem {A} (l : list A) (i : nat) (a : A) : res (list A) :=
  if decide (i < length l)%nat then Ok (<[i:=a]> l) else Raise IndexError.

(** ** The module, on values *)

(** [swap_digits]: the right-hand tuple of each assignment is evaluated
    first, left to right, then the two targets are stored left to right.
    The copy is the value itself here; the store model is in [Heap]. *)
Definition swap_digits {A} (digits : list A) : res (list A) :=
  let result := digits in
  a ← getitem result 2; b ← getitem result 0;
  result ← setitem result 0 a; result ← setitem result 2 b;
  a ← getitem result 3; b ← getitem result 1;
  result ← setitem result 1 a; result ← setitem result 3 b;
  a ← getitem result 5; b ← getitem result 4;
  result ← setitem result 4 a; result ← setitem result 5 b;
  mret result.

(** The guard shared by both directions. *)
Definition accepted (s : pystr) : bool :=
  str_isdigit s && bool_decide (length s = 6%nat).

Definition encrypt_number (number_str : pystr) : res (option pystr) :=
  if negb (accepted number_str) then mret None
  else
    digits ← mapM int_char number_str;
    let encrypted_digits := (λ d, (d + 7) `mod` 10) <$> digits in
    encrypted_digits ← swap_digits encrypted_digits;
    mret (Some (str_join (str_of_int <$> encrypted_digits))).

Definition decrypt_number (encrypted_str : pystr) : res (option pystr) :=
  if negb (accepted encrypted_str) then mret None
  else
    digits ← mapM int_char encrypted_str;
    digits ← swap_digits digits;
    let decrypted_digits := (λ d, (d - 7 + 10) `mod` 10) <$> digits in
    mret (Some (str_join (str_of_int <$> decrypted_digits))).

(** ** [swap_digits] on a store of list objects

    Python lists are mutable objects reached through references. This
    model keeps a store from references to list contents, so that the copy
    made by [digits.copy()] and the item assignments that follow are
    visible as store updates. *)
Module Heap.

Definition loc : Type := positive.

Section ops.
Context {A : Type}.

(** A command runs on a store and yields an outcome and the store it
    leaves. [None] stands for a reference outside the store, which no
    Python program can hold. *)
Definition cmd (B : Type) : Type :=
  gmap loc (list A) → option (res B * gmap loc (list A)).

#[export] Instance cmd_ret : MRet cmd := λ B b h, Some (Ok b, h).

#[export] Instance cmd_bind : MBind cmd := λ B C k m h,
  match m h with
  | Some (Ok b, h') => k b h'
  | Some (Raise e, h') => Some (Raise e, h')
  | None => None
  end.

(** [x.copy()]: a new list object with the same items. *)
Definition list_copy (x : loc) : cmd loc := λ h,
  match h !! x with
  | Some l => let r := fresh (dom h) in Some (Ok r, <[r:=l]> h)
  | None => None
  end.

(** [x[i]] read through the reference. *)
Definition list_get (x : loc) (i : nat) : cmd A := λ h,
  match h !! x with
  | Some l => Some (getitem l i, h)
  | None => None
  end.

(** [x[i] = a]: the object behind [x] is updated in place. *)
Definition list_set (x : loc) (i : nat) (a : A) : cmd unit := λ h,
  match h !! x with
  | Some l =>
      match setitem l i a with
      | Ok l' => Some (Ok (), <[x:=l']> h)
      | Raise e => Some (Raise e, h)
      end
  | None => None
  end.

(** One tuple assignment [r[i], r[j] = r[j], r[i]]. *)
Definition exchange (r : loc) (i j : nat) : cmd unit :=
  a ← list_get r j; b ← list_get r i;
  list_set r i a;; list_set r j b.

Definition swap_digits (digits : loc) : cmd loc :=
  result ← list_copy digits;
  exchange result 0 2;;
  exchange result 1 3;;
  exchange result 4 5;;
  mret result.

End ops.
End Heap.

(** ** The specification's vocabulary *)

(** An ASCII decimal digit, ['0'] to ['9']. *)
Definition ascii_digit (c : char) : Prop := (48 ≤ c ≤ 57)%N.

(** Exactly six characters, each an ASCII decimal digit. *)
Definition valid6 (s : pystr) : Prop :=
  length s = 6%nat ∧ Forall ascii_digit s.

(** Every character of the string is in the ASCII range. *)
Definition ascii_only (s : pystr) : Prop := Forall (λ c, (c < 128)%N) s.

#[global] Instance ascii_digit_dec c : Decision (ascii_digit c).
Proof. unfold ascii_digit. apply _. Defined.
#[global] Instance valid6_dec s : Decision (valid6 s).
Proof. unfold valid6. apply _. Defined.
#[global] Instance ascii_only_dec s : Decision (ascii_only s).
Proof. unfold ascii_only. apply _. Defined.

(** A digit of a digit sequence. *)
Definition digit (d : Z) : Prop := 0 ≤ d ≤ 9.

(** Digits of a string, left to right, and the string of a digit
    sequence, position by position. *)
Definition parse_digits (s : pystr) : list Z := (λ c, Z.of_N c - 48) <$> s.
Definition render_digits (ds : list Z) : pystr := (λ d, Z.to_N (d + 48)) <$> ds.

(** The three shifts the specification names. *)
Definition shift7 (d : Z) : Z := (d + 7) `mod` 10.
Definition unshift7 (d : Z) : Z := (d - 7 + 10) `mod` 10.
Definition shift3 (d : Z) : Z := (d + 3) `mod` 10.

(** The positional swap as the specification words it: positions 0 and 2,
    1 and 3, 4 and 5 of a six-element sequence are exchanged. *)
Definition spec_swap {A} (x : list A) : list A :=
  match x with
  | [x0; x1; x2; x3; x4; x5] => [x2; x3; x0; x1; x5; x4]
  | _ => x
  end.

(** The forward transform as the specification words it: parse, shift,
    swap, render. *)
Definition spec_encrypt (s : pystr) : pystr :=
  render_digits (spec_swap (shift7 <$> parse_digits s)).

(** The backward transform as the specification words it: parse, swap,
    inverse shift, render; and its variant with the shift by three. *)
Definition spec_decrypt (s : pystr) : pystr :=
  render_digits (unshift7 <$> spec_swap (parse_digits s)).
Definition spec_decrypt3 (s : pystr) : pystr :=
  render_digits (shift3 <$> spec_swap (parse_digits s)).

(** [encrypt_number] with its two steps exchanged: swap, then shift. *)
Definition encrypt_number_swap_first (number_str : pystr) : res (option pystr) :=
  if negb (accepted number_str) then mret None
  else
    digits ← mapM int_char number_str;
    digits ← swap_digits digits;
    let encrypted_digits := (λ d, (d + 7) `mod` 10) <$> digits in
    mret (Some (str_join (str_of_int <$> encrypted_digits))).

(** [decrypt_number] with its two steps exchanged: shift, then swap. *)
Definition decrypt_number_shift_first (encrypted_str : pystr) : res (option pystr) :=
  if negb (accepted encrypted_str) then mret None
  else
    digits ← mapM int_char encrypted_str;
    let decrypted_digits := (λ d, (d - 7 + 10) `mod` 10) <$> digits in
    decrypted_digits ← swap_digits decrypted_digits;
    mret (Some (str_join (str_of_int <$> decrypted_digits))).

(** Inputs used below: ARABIC-INDIC DIGIT ONE to SIX, and six times
    SUPERSCRIPT TWO. *)
Definition arabic_indic_123456 : pystr :=
  [0x661; 0x662; 0x663; 0x664; 0x665; 0x666]%N.
Definition superscript_222222 : pystr :=
  [0xb2; 0xb2; 0xb2; 0xb2; 0xb2; 0xb2]%N.

(** Six characters that [str.isdigit] takes for digits: what the guard of
    both directions lets through. *)
Definition unicode_digit6 (s : pystr) : Prop :=
  length s = 6%nat ∧ Forall (λ c, Unicode.is_digit c = true) s.

(** Closes an equation between closed terms over a digit [d] in range,
    by the ten cases of [d]. *)
Ltac by_digit_cases d H :=
  let E := fresh "E" in
  assert (E : d = 0 ∨ d = 1 ∨ d = 2 ∨ d = 3 ∨ d = 4 ∨
              d = 5 ∨ d = 6 ∨ d = 7 ∨ d = 8 ∨ d = 9)
    by (unfold digit in H; lia);
  destruct E as [->|[->|[->|[->|[->|[->|[->|[->|[->| ->]]]]]]]]];
  reflexivity.

(** ** The pages that call the module

    [EncryptPage.perform_encrypt] and [DecryptPage.perform_decrypt] read the
    entry field, call the transform and branch on the truth value of what
    it returned. The Qt calls are kept as the dialogs they open and the
    text they leave in the entry field. *)
Module Pages.

(** What a page opens: a [ResultDialog] on the value it was given, or the
    [QMessageBox.critical] box with its title and message. *)
Inductive dialog : Type :=
  | ResultDialog (result : option pystr)
  | MessageCritical (title message : string).

(** The truth value of a [str] or [None] in an [if]: [None] and the empty
    string are false. *)
Definition truthy (v : option pystr) : bool :=
  match v with
  | Some (_ :: _) => true
  | _ => false
  end.

(** A run of a handler: how the call ended, the dialogs opened in order,
    and the text of the entry field afterwards. *)
Record run : Type := Run {
  ended : res unit;
  opened : list dialog;
  entry_after : pystr
}.

(** [perform_encrypt]. An exception of [encrypt_number] leaves the handler
    before any Qt call. *)
Definition perform_encrypt (number_entry : pystr) : run :=
  let number_to_encrypt := number_entry in
  match encrypt_number number_to_encrypt with
  | Raise e => Run (Raise e) [] number_entry
  | Ok encrypted_result =>
      if truthy encrypted_result then
        Run (Ok ()) [ResultDialog encrypted_result] []
      else
        Run (Ok ())
            [MessageCritical "Input Error" "Please enter a 6-digit number."]
            []
  end.

(** [perform_decrypt], the same handler on [decrypt_number]. *)
Definition perform_decrypt (encrypted_number_entry : pystr) : run :=
  let number_to_decrypt := encrypted_number_entry in
  match decrypt_number number_to_decrypt with
  | Raise e => Run (Raise e) [] encrypted_number_entry
  | Ok decrypted_result =>
      if truthy decrypted_result then
        Run (Ok ()) [ResultDialog decrypted_result] []
      else
        Run (Ok ())
            [MessageCritical "Input Error" "Please enter a 6-digit number."]
            []
  end.

End Pages.

(** ** Window placement ([functions/utils.py])

    The two centring functions read integer geometry from Qt and pass a
    point to [widget.move]; the model takes the geometry as data and
    returns that point. [//] is floor division. *)
Module Utils.

Record rect : Type := Rect {
  rect_x : Z; rect_y : Z; rect_width : Z; rect_height : Z
}.

(** What the functions read of a widget: its size, the geometry of its
    parent's window when it has a parent, and the available geometry of
    its screen. *)
Record widget : Type := Widget {
  width : Z;
  height : Z;
  parent_window_geometry : option rect;
  screen_available_geometry : rect
}.

Definition center_on_screen (w : widget) : Z * Z :=
  let screen_geometry := screen_available_geometry w in
  let x := (rect_width screen_geometry - width w) `div` 2 in
  let y := (rect_height screen_geometry - height w) `div` 2 in
  (x, y).

Definition center_on_parent (w : widget) : Z * Z :=
  match parent_window_geometry w with
  | Some parent_geometry =>
      let x := rect_x parent_geometry
               + (rect_width parent_geometry - width w) `div` 2 in
      let y := rect_y parent_geometry
               + (rect_height parent_geometry - height w) `div` 2 in
      (x, y)
  | None => center_on_screen w
  end.

End Utils.

(** A character with no decimal value: [int] raises on it. *)
Definition no_decimal (c : char) : Prop := Unicode.decimal c = None.

#[global] Instance no_decimal_dec c : Decision (no_decimal c).
Proof. unfold no_decimal. apply _. Defined.

(** The shift by four, which two forward shifts amount to. *)
Definition shift4 (d : Z) : Z := (d + 4) `mod` 10.

(** * Results *)

(** ** Built-ins on ASCII digits *)

Lemma decimal_ascii_digit c :
  ascii_digit c → Unicode.decimal c = Some (Z.of_N c - 48).
Proof.
  intros [Hlo Hhi]. unfold Unicode.decimal, Unicode.decimal_zeros.
  cbn [Unicode.decimal_in].
  destruct (N.leb_spec 48 c) as [_|?]; [|lia].
  destruct (N.ltb_spec c (48 + 10)) as [_|?]; [|lia].
  cbn [andb]. f_equal. lia.
Qed.

Lemma is_digit_ascii_digit c : ascii_digit c → Unicode.is_digit c = true.
Proof.
  intros H. unfold Unicode.is_digit. by rewrite decimal_ascii_digit.
Qed.

Lemma int_char_ascii_digit c : ascii_digit c → int_char c = Ok (Z.of_N c - 48).
Proof. intros H. unfold int_char. by rewrite decimal_ascii_digit. Qed.

Lemma str_of_int_digit d : digit d → str_of_int d = [Z.to_N (d + 48)].
Proof. intros H. by_digit_cases d H. Qed.

Lemma mapM_int_char_ascii s :
  Forall ascii_digit s → mapM int_char s = Ok (parse_digits s).
Proof.
  induction 1 as [|c s Hc _ IH]; [done|].
  cbn [mapM]. rewrite int_char_ascii_digit by done.
  cbn. unfold parse_digits in IH. by rewrite IH.
Qed.

Lemma str_join_digits ds :
  Forall digit ds → str_join (str_of_int <$> ds) = render_digits ds.
Proof.
  unfold str_join. induction 1 as [|d ds Hd _ IH]; [done|].
  cbn [fmap list_fmap concat]. rewrite str_of_int_digit by done.
  cbn [app]. unfold render_digits in *. cbn [fmap list_fmap] in *. by rewrite IH.
Qed.

Lemma accepted_valid6 s : valid6 s → accepted s = true.
Proof.
  intros [Hlen Hall]. unfold accepted. rewrite bool_decide_eq_true_2 by done.
  rewrite andb_true_r. destruct s as [|c s]; [done|]. unfold str_isdigit.
  apply forallb_forall. intros d Hd.
  apply is_digit_ascii_digit. rewrite Forall_forall in Hall.
  apply Hall. by apply list_elem_of_In.
Qed.

(** ** The swap on values *)

Lemma length_six_inv {A} (x : list A) :
  length x = 6%nat → ∃ x0 x1 x2 x3 x4 x5, x = [x0; x1; x2; x3; x4; x5].
Proof.
  destruct x as [|x0 [|x1 [|x2 [|x3 [|x4 [|x5 [|x6 x]]]]]]]; try discriminate.
  intros _. by exists x0, x1, x2, x3, x4, x5.
Qed.

Lemma swap_digits_six {A} (x : list A) :
  length x = 6%nat → swap_digits x = Ok (spec_swap x).
Proof.
  intros (x0 & x1 & x2 & x3 & x4 & x5 & ->)%length_six_inv. reflexivity.
Qed.

Lemma spec_swap_length {A} (x : list A) : length (spec_swap x) = length x.
Proof.
  destruct x as [|x0 [|x1 [|x2 [|x3 [|x4 [|x5 [|x6 x]]]]]]]; reflexivity.
Qed.

Lemma spec_swap_involutive {A} (x : list A) : spec_swap (spec_swap x) = x.
Proof.
  destruct x as [|x0 [|x1 [|x2 [|x3 [|x4 [|x5 [|x6 x]]]]]]]; reflexivity.
Qed.

Lemma spec_swap_fmap {A B} (f : A → B) (x : list A) :
  spec_swap (f <$> x) = f <$> spec_swap x.
Proof.
  destruct x as [|x0 [|x1 [|x2 [|x3 [|x4 [|x5 [|x6 x]]]]]]]; reflexivity.
Qed.

Lemma spec_swap_Forall {A} (P : A → Prop) (x : list A) :
  Forall P x → Forall P (spec_swap x).
Proof.
  destruct x as [|x0 [|x1 [|x2 [|x3 [|x4 [|x5 [|x6 x]]]]]]]; try done.
  rewrite !Forall_cons. cbn [spec_swap]. rewrite !Forall_cons. tauto.
Qed.

(** The swap commutes with every item-wise map, whatever the length:
    a list too short raises the same [IndexError] on both sides. *)
Lemma swap_digits_fmap {A B} (f : A → B) (x : list A) :
  swap_digits (f <$> x) = fmap (M:=list) f <$> swap_digits x.
Proof.
  destruct x as [|x0 [|x1 [|x2 [|x3 [|x4 [|x5 x]]]]]]; reflexivity.
Qed.

(** ** The two directions on valid input *)

Lemma length_parse_digits s : length (parse_digits s) = length s.
Proof. apply length_fmap. Qed.

Lemma length_render_digits ds : length (render_digits ds) = length ds.
Proof. apply length_fmap. Qed.

Lemma shift7_digit d : digit (shift7 d).
Proof. unfold digit, shift7. pose proof (Z.mod_pos_bound (d + 7) 10). lia. Qed.

Lemma unshift7_digit d : digit (unshift7 d).
Proof.
  unfold digit, unshift7. pose proof (Z.mod_pos_bound (d - 7 + 10) 10). lia.
Qed.

Lemma unshift7_shift3 d : unshift7 d = shift3 d.
Proof. unfold unshift7, shift3. f_equal. lia. Qed.

Lemma encrypt_number_valid6 s :
  valid6 s → encrypt_number s = Ok (Some (spec_encrypt s)).
Proof.
  intros Hs. unfold encrypt_number. rewrite accepted_valid6 by done.
  destruct Hs as [Hlen Hall]. cbn [negb].
  rewrite mapM_int_char_ascii by done. cbn.
  rewrite swap_digits_six by (by rewrite length_fmap, length_parse_digits). cbn.
  rewrite str_join_digits; [done|].
  apply spec_swap_Forall, Forall_fmap, Forall_true. intros d. apply shift7_digit.
Qed.

Lemma decrypt_number_valid6 s :
  valid6 s → decrypt_number s = Ok (Some (spec_decrypt s)).
Proof.
  intros Hs. unfold decrypt_number. rewrite accepted_valid6 by done.
  destruct Hs as [Hlen Hall]. cbn [negb].
  rewrite mapM_int_char_ascii by done. cbn.
  rewrite swap_digits_six by (by rewrite length_parse_digits). cbn.
  rewrite str_join_digits; [done|].
  apply Forall_fmap, Forall_true. intros d. apply unshift7_digit.
Qed.

Lemma render_digits_valid6 ds :
  length ds = 6%nat → Forall digit ds → valid6 (render_digits ds).
Proof.
  intros Hlen Hds. split; [by rewrite length_render_digits|].
  apply Forall_fmap. eapply Forall_impl; [exact Hds|].
  intros d Hd. unfold digit in Hd. unfold ascii_digit. cbn. lia.
Qed.

Lemma spec_encrypt_valid6 s : valid6 s → valid6 (spec_encrypt s).
Proof.
  intros [Hlen _]. apply render_digits_valid6.
  - by rewrite spec_swap_length, length_fmap, length_parse_digits.
  - apply spec_swap_Forall, Forall_fmap, Forall_true. intros d. apply shift7_digit.
Qed.

Lemma spec_decrypt_valid6 s : valid6 s → valid6 (spec_decrypt s).
Proof.
  intros [Hlen _]. apply render_digits_valid6.
  - by rewrite length_fmap, spec_swap_length, length_parse_digits.
  - apply Forall_fmap, Forall_true. intros d. apply unshift7_digit.
Qed.

Lemma parse_render ds : Forall digit ds → parse_digits (render_digits ds) = ds.
Proof.
  unfold parse_digits, render_digits. induction 1 as [|d ds Hd _ IH]; [done|].
  cbn [fmap list_fmap] in *. rewrite IH. f_equal. unfold digit in Hd. lia.
Qed.

Lemma render_parse s : Forall ascii_digit s → render_digits (parse_digits s) = s.
Proof.
  unfold parse_digits, render_digits. induction 1 as [|c s Hc _ IH]; [done|].
  cbn [fmap list_fmap] in *. rewrite IH. f_equal. unfold ascii_digit in Hc. lia.
Qed.

Lemma parse_digits_digit s : Forall ascii_digit s → Forall digit (parse_digits s).
Proof.
  intros H. apply Forall_fmap. eapply Forall_impl; [exact H|].
  intros c Hc. unfold ascii_digit in Hc. unfold digit. cbn. lia.
Qed.

Lemma unshift7_shift7 d : digit d → unshift7 (shift7 d) = d.
Proof. intros H. by_digit_cases d H. Qed.

Lemma shift7_unshift7 d : digit d → shift7 (unshift7 d) = d.
Proof. intros H. by_digit_cases d H. Qed.

Lemma fmap_cancel_digits (f g : Z → Z) ds :
  (∀ d, digit d → g (f d) = d) → Forall digit ds → g <$> (f <$> ds) = ds.
Proof.
  intros Hfg. induction 1 as [|d ds Hd _ IH]; [done|].
  cbn [fmap list_fmap] in *. by rewrite IH, Hfg.
Qed.

Lemma spec_decrypt_encrypt s : valid6 s → spec_decrypt (spec_encrypt s) = s.
Proof.
  intros [_ Hall]. unfold spec_decrypt, spec_encrypt.
  pose proof (parse_digits_digit s Hall) as Hds.
  rewrite parse_render
    by (apply spec_swap_Forall, Forall_fmap, Forall_true; intros d; apply shift7_digit).
  rewrite spec_swap_involutive.
  rewrite (fmap_cancel_digits shift7 unshift7) by auto using unshift7_shift7.
  by apply render_parse.
Qed.

Lemma spec_encrypt_decrypt s : valid6 s → spec_encrypt (spec_decrypt s) = s.
Proof.
  intros [_ Hall]. unfold spec_decrypt, spec_encrypt.
  pose proof (parse_digits_digit s Hall) as Hds.
  rewrite parse_render
    by (apply Forall_fmap, Forall_true; intros d; apply unshift7_digit).
  rewrite (fmap_cancel_digits unshift7 shift7)
    by auto using shift7_unshift7, spec_swap_Forall.
  rewrite spec_swap_involutive. by apply render_parse.
Qed.

(** ** The guard *)

Lemma accepted_unicode_digit6 s : accepted s = true ↔ unicode_digit6 s.
Proof.
  unfold accepted, unicode_digit6. rewrite andb_true_iff, bool_decide_eq_true.
  split.
  - intros [Hd Hlen]. split; [done|]. destruct s as [|c s]; [done|].
    unfold str_isdigit in Hd. apply Forall_forall. intros d Hin.
    rewrite forallb_forall in Hd. apply Hd. by apply list_elem_of_In.
  - intros [Hlen Hall]. split; [|done]. destruct s as [|c s]; [done|].
    unfold str_isdigit. apply forallb_forall. intros d Hin.
    rewrite Forall_forall in Hall. apply Hall. by apply list_elem_of_In.
Qed.





(** ** The swap on the store *)

Section heap_facts.
Context {A : Type}.
Implicit Types (h : gmap Heap.loc (list A)) (l : list A).

Lemma list_get_insert h r l i :
  Heap.list_get r i (<[r:=l]> h) = Some (getitem l i, <[r:=l]> h).
Proof. unfold Heap.list_get. by rewrite lookup_insert_eq. Qed.

Lemma list_set_insert h r l i a l' :
  setitem l i a = Ok l' →
  Heap.list_set r i a (<[r:=l]> h) = Some (Ok (), <[r:=l']> h).
Proof.
  intros Hset. unfold Heap.list_set.
  by rewrite lookup_insert_eq, Hset, insert_insert_eq.
Qed.

Lemma exchange_insert h r l i j a b l1 l2 :
  getitem l j = Ok a → getitem l i = Ok b →
  setitem l i a = Ok l1 → setitem l1 j b = Ok l2 →
  Heap.exchange r i j (<[r:=l]> h) = Some (Ok (), <[r:=l2]> h).
Proof.
  intros Hj Hi H1 H2. unfold Heap.exchange, mbind, Heap.cmd_bind.
  rewrite !list_get_insert, Hj, Hi.
  rewrite (list_set_insert _ _ _ _ _ _ H1).
  by rewrite (list_set_insert _ _ _ _ _ _ H2).
Qed.

(** Whenever the swap on values returns, the swap on the store returns a
    reference that was not in use, bound to the swapped items, and leaves
    every other binding as it was. *)
Lemma heap_swap_digits_ok h x l l' :
  h !! x = Some l → swap_digits l = Ok l' →
  Heap.swap_digits x h
  = Some (Ok (fresh (dom h)), <[fresh (dom h):=l']> h).
Proof.
  intros Hx Hswap.
  destruct l as [|x0 [|x1 [|x2 [|x3 [|x4 [|x5 l]]]]]]; try discriminate.
  injection Hswap as <-.
  unfold Heap.swap_digits, mbind at 1, Heap.cmd_bind at 1.
  unfold Heap.list_copy. rewrite Hx. cbn zeta.
  set (r := fresh (dom h)).
  unfold mbind at 1, Heap.cmd_bind at 1.
  erewrite exchange_insert by reflexivity.
  unfold mbind at 1, Heap.cmd_bind at 1.
  erewrite exchange_insert by reflexivity.
  unfold mbind at 1, Heap.cmd_bind at 1.
  erewrite exchange_insert by reflexivity.
  reflexivity.
Qed.

Lemma fresh_loc_unused h : h !! fresh (dom h) = None.
Proof. apply not_elem_of_dom, is_fresh. Qed.

End heap_facts.

(** ** Every outcome of the two directions *)

Lemma decimal_in_digit zeros c v :
  Unicode.decimal_in zeros c = Some v → digit v.
Proof.
  induction zeros as [|z zeros IH]; cbn [Unicode.decimal_in]; [done|].
  destruct (_ && _) eqn:Hin; [|done].
  apply andb_true_iff in Hin as [Hlo%N.leb_le Hhi%N.ltb_lt].
  intros [= <-]. unfold digit. lia.
Qed.

Lemma int_char_outcome c :
  (∃ v, int_char c = Ok v ∧ digit v) ∨ int_char c = Raise ValueError.
Proof.
  unfold int_char, Unicode.decimal.
  destruct (Unicode.decimal_in _ c) as [v|] eqn:Hv; [left|by right].
  exists v. eauto using decimal_in_digit.
Qed.

Lemma mapM_int_char_outcome s :
  (∃ ds, mapM int_char s = Ok ds ∧ length ds = length s ∧ Forall digit ds)
  ∨ mapM int_char s = Raise ValueError.
Proof.
  induction s as [|c s IH]; [left; by exists []|].
  cbn [mapM]. destruct (int_char_outcome c) as [(v & -> & Hv)| ->]; [|by right].
  destruct IH as [(ds & -> & Hlen & Hds)| ->]; [left|by right].
  exists (v :: ds). cbn. by rewrite Hlen, Forall_cons.
Qed.

(** Each direction returns [None], returns six ASCII decimal digits, or
    raises [ValueError]; nothing else. *)
Lemma encrypt_number_outcome s :
  encrypt_number s = Ok None
  ∨ (∃ t, encrypt_number s = Ok (Some t) ∧ valid6 t)
  ∨ encrypt_number s = Raise ValueError.
Proof.
  unfold encrypt_number. destruct (accepted s) eqn:Hacc; cbn [negb]; [|by left].
  right. apply accepted_unicode_digit6 in Hacc as [Hlen _].
  destruct (mapM_int_char_outcome s) as [(ds & -> & Hl & Hds)| ->]; [left|by right].
  cbn [mbind res_bind]. rewrite swap_digits_six by (by rewrite length_fmap, Hl).
  cbn [mbind res_bind mret res_ret].
  assert (Hout : Forall digit (spec_swap ((λ d, (d + 7) `mod` 10) <$> ds))).
  { apply spec_swap_Forall, Forall_fmap, Forall_true. intros d. apply shift7_digit. }
  rewrite str_join_digits by done. eexists. split; [done|].
  apply render_digits_valid6; [|done].
  by rewrite spec_swap_length, length_fmap, Hl.
Qed.

Lemma decrypt_number_outcome s :
  decrypt_number s = Ok None
  ∨ (∃ t, decrypt_number s = Ok (Some t) ∧ valid6 t)
  ∨ decrypt_number s = Raise ValueError.
Proof.
  unfold decrypt_number. destruct (accepted s) eqn:Hacc; cbn [negb]; [|by left].
  right. apply accepted_unicode_digit6 in Hacc as [Hlen _].
  destruct (mapM_int_char_outcome s) as [(ds & -> & Hl & Hds)| ->]; [left|by right].
  cbn [mbind res_bind]. rewrite swap_digits_six by (by rewrite Hl).
  cbn [mbind res_bind mret res_ret].
  assert (Hout : Forall digit ((λ d, (d - 7 + 10) `mod` 10) <$> spec_swap ds)).
  { apply Forall_fmap, Forall_true. intros d. apply unshift7_digit. }
  rewrite str_join_digits by done. eexists. split; [done|].
  apply render_digits_valid6; [|done].
  by rewrite length_fmap, spec_swap_length, Hl.
Qed.

(** * The claims *)

(** C1. Round trip: for every string [s] of exactly six ASCII decimal
    digits, encrypting [s] returns a string that decrypts to [s], and
    decrypting [s] returns a string that encrypts to [s]. *)
Theorem round_trip s :
  valid6 s →
  (∃ t, encrypt_number s = Ok (Some t) ∧ decrypt_number t = Ok (Some s)) ∧
  (∃ u, decrypt_number s = Ok (Some u) ∧ encrypt_number u = Ok (Some s)).
Proof.
  intros Hs. split.
  - exists (spec_encrypt s). split; [by apply encrypt_number_valid6|].
    rewrite decrypt_number_valid6 by (by apply spec_encrypt_valid6).
    by rewrite spec_decrypt_encrypt.
  - exists (spec_decrypt s). split; [by apply decrypt_number_valid6|].
    rewrite encrypt_number_valid6 by (by apply spec_decrypt_valid6).
    by rewrite spec_encrypt_decrypt.
Qed.

Lemma round_trip_witness :
  valid6 (of_string "407913") ∧
  (∃ t, encrypt_number (of_string "407913") = Ok (Some t)
        ∧ decrypt_number t = Ok (Some (of_string "407913"))) ∧
  (∃ u, decrypt_number (of_string "407913") = Ok (Some u)
        ∧ encrypt_number u = Ok (Some (of_string "407913"))).
Proof.
  split; [vm_compute; repeat constructor; discriminate|].
  apply (round_trip (of_string "407913")).
  vm_compute; repeat constructor; discriminate.
Defined.




(** C3 fails on the code: on six SUPERSCRIPT TWO characters the guard lets
    the input through and [int] raises [ValueError], in both
    directions. *)
Theorem superscript_digits_raise :
  encrypt_number superscript_222222 = Raise ValueError ∧
  decrypt_number superscript_222222 = Raise ValueError.
Proof. split; vm_compute; reflexivity. Qed.

(** C4. [swap_digits] is an involution: on every six-element sequence [x],
    swapping returns, and swapping the result returns [x]. *)
Theorem swap_digits_involution {A} (x : list A) :
  length x = 6%nat → swap_digits x ≫= swap_digits = Ok x.
Proof.
  intros Hx. rewrite swap_digits_six by done. cbn [mbind res_bind].
  rewrite swap_digits_six by (by rewrite spec_swap_length).
  by rewrite spec_swap_involutive.
Qed.

Lemma swap_digits_involution_witness :
  length [1; 2; 3; 4; 5; 6] = 6%nat ∧
  swap_digits [1; 2; 3; 4; 5; 6] ≫= swap_digits = Ok [1; 2; 3; 4; 5; 6].
Proof.
  split; [reflexivity|].
  apply (swap_digits_involution [1; 2; 3; 4; 5; 6]). reflexivity.
Defined.

(** C5. [swap_digits] computes the fixed permutation: on every six-element
    sequence [x] it returns a six-element sequence that holds at position
    0 the item [x] holds at 2 and conversely, at 1 the item of 3 and
    conversely, at 4 the item of 5 and conversely. *)
Theorem swap_digits_permutation {A} (x : list A) :
  length x = 6%nat →
  ∃ y, swap_digits x = Ok y ∧ length y = 6%nat ∧
       y !! 0%nat = x !! 2%nat ∧ y !! 2%nat = x !! 0%nat ∧
       y !! 1%nat = x !! 3%nat ∧ y !! 3%nat = x !! 1%nat ∧
       y !! 4%nat = x !! 5%nat ∧ y !! 5%nat = x !! 4%nat.
Proof.
  intros (x0 & x1 & x2 & x3 & x4 & x5 & ->)%length_six_inv.
  exists [x2; x3; x0; x1; x5; x4]. by split_and!.
Qed.

Lemma swap_digits_permutation_witness :
  length [8; 9; 0; 1; 2; 3] = 6%nat ∧
  ∃ y, swap_digits [8; 9; 0; 1; 2; 3] = Ok y ∧ length y = 6%nat ∧
       y !! 0%nat = [8; 9; 0; 1; 2; 3] !! 2%nat ∧
       y !! 2%nat = [8; 9; 0; 1; 2; 3] !! 0%nat ∧
       y !! 1%nat = [8; 9; 0; 1; 2; 3] !! 3%nat ∧
       y !! 3%nat = [8; 9; 0; 1; 2; 3] !! 1%nat ∧
       y !! 4%nat = [8; 9; 0; 1; 2; 3] !! 5%nat ∧
       y !! 5%nat = [8; 9; 0; 1; 2; 3] !! 4%nat.
Proof.
  split; [reflexivity|].
  apply (swap_digits_permutation [8; 9; 0; 1; 2; 3]). reflexivity.
Defined.

(** C6. Encrypt algorithm: on every string [s] of six ASCII decimal digits
    [encrypt_number] returns the six-character string obtained by parsing
    [s] left to right, replacing each digit [d] by [(d + 7) mod 10],
    applying the positional swap, and rendering each digit in place. *)
Theorem encrypt_number_algorithm s :
  valid6 s →
  encrypt_number s = Ok (Some (spec_encrypt s)) ∧
  length (spec_encrypt s) = 6%nat.
Proof.
  intros Hs. split; [by apply encrypt_number_valid6|].
  by destruct (spec_encrypt_valid6 s Hs).
Qed.

Lemma encrypt_number_algorithm_witness :
  valid6 (of_string "005090") ∧
  encrypt_number (of_string "005090") = Ok (Some (spec_encrypt (of_string "005090"))) ∧
  length (spec_encrypt (of_string "005090")) = 6%nat.
Proof.
  split; [vm_compute; repeat constructor; discriminate|].
  apply (encrypt_number_algorithm (of_string "005090")).
  vm_compute; repeat constructor; discriminate.
Defined.

(** C7. Decrypt algorithm and order: on every string [s] of six ASCII
    decimal digits [decrypt_number] returns the six-character string
    obtained by parsing [s], applying the positional swap first, then
    replacing each digit [d] by [(d - 7 + 10) mod 10], which is
    [(d + 3) mod 10], and rendering. *)
Theorem decrypt_number_algorithm s :
  valid6 s →
  decrypt_number s = Ok (Some (spec_decrypt s)) ∧
  spec_decrypt s = spec_decrypt3 s ∧
  length (spec_decrypt s) = 6%nat.
Proof.
  intros Hs. split_and!.
  - by apply decrypt_number_valid6.
  - unfold spec_decrypt, spec_decrypt3. f_equal.
    apply list_fmap_ext. intros _ d _. apply unshift7_shift3.
  - by destruct (spec_decrypt_valid6 s Hs).
Qed.

Lemma decrypt_number_algorithm_witness :
  valid6 (of_string "018932") ∧
  decrypt_number (of_string "018932") = Ok (Some (spec_decrypt (of_string "018932"))) ∧
  spec_decrypt (of_string "018932") = spec_decrypt3 (of_string "018932") ∧
  length (spec_decrypt (of_string "018932")) = 6%nat.
Proof.
  split; [vm_compute; repeat constructor; discriminate|].
  apply (decrypt_number_algorithm (of_string "018932")).
  vm_compute; repeat constructor; discriminate.
Defined.

(** C8. The concrete vectors of the specification. *)
Theorem concrete_vectors :
  encrypt_number (of_string "123456") = Ok (Some (of_string "018932")) ∧
  decrypt_number (of_string "018932") = Ok (Some (of_string "123456")) ∧
  encrypt_number (of_string "000000") = Ok (Some (of_string "777777")) ∧
  decrypt_number (of_string "777777") = Ok (Some (of_string "000000")) ∧
  encrypt_number (of_string "999999") = Ok (Some (of_string "666666")) ∧
  decrypt_number (of_string "666666") = Ok (Some (of_string "999999")) ∧
  encrypt_number (of_string "abc123") = Ok None ∧
  encrypt_number (of_string "12345") = Ok None.
Proof. split_and!; vm_compute; reflexivity. Qed.

(** C9. No mutation of the caller's sequence: called on a reference [x] to
    a six-element list, [swap_digits] returns a reference [r] that was not
    in use before the call and differs from [x]; after the call [x] still
    holds the same items in the same order, [r] holds the swapped items,
    and no other list has changed. *)
Theorem swap_digits_fresh_copy {A} (h : gmap Heap.loc (list A)) x l :
  h !! x = Some l → length l = 6%nat →
  ∃ r h' l',
    Heap.swap_digits x h = Some (Ok r, h') ∧
    h !! r = None ∧ r ≠ x ∧
    h' !! x = Some l ∧
    h' !! r = Some l' ∧ swap_digits l = Ok l' ∧
    ∀ y, y ≠ r → h' !! y = h !! y.
Proof.
  intros Hx Hlen. pose proof (fresh_loc_unused h) as Hr.
  assert (Hne : fresh (dom h) ≠ x) by congruence.
  exists (fresh (dom h)), (<[fresh (dom h):=spec_swap l]> h), (spec_swap l).
  split_and!; try done.
  - apply (heap_swap_digits_ok h x l); [done|]. by apply swap_digits_six.
  - by rewrite lookup_insert_ne.
  - by rewrite lookup_insert_eq.
  - by apply swap_digits_six.
  - intros y Hy. by rewrite lookup_insert_ne.
Qed.

Lemma swap_digits_fresh_copy_witness :
  let h : gmap Heap.loc (list Z) := {[ 1%positive := [8; 9; 0; 1; 2; 3] ]} in
  h !! 1%positive = Some [8; 9; 0; 1; 2; 3] ∧
  length [8; 9; 0; 1; 2; 3] = 6%nat ∧
  ∃ r h' l',
    Heap.swap_digits 1%positive h = Some (Ok r, h') ∧
    h !! r = None ∧ r ≠ 1%positive ∧
    h' !! 1%positive = Some [8; 9; 0; 1; 2; 3] ∧
    h' !! r = Some l' ∧ swap_digits [8; 9; 0; 1; 2; 3] = Ok l' ∧
    ∀ y, y ≠ r → h' !! y = h !! y.
Proof.
  intros h.
  assert (Hx : h !! 1%positive = Some [8; 9; 0; 1; 2; 3]) by reflexivity.
  split; [exact Hx|]. split; [reflexivity|].
  exact (swap_digits_fresh_copy h 1%positive [8; 9; 0; 1; 2; 3] Hx eq_refl).
Defined.

(** C10. The shift commutes with the swap: for every list [x] of six
    integers the swap returns some [y], and the swap of the shifted [x] is
    the shifted [y], for the shift by seven, its inverse as the code writes
    it and the shift by three; so each direction computes the same
    function, on every string, when its two steps are exchanged. *)
Theorem shift_commutes_with_swap (x : list Z) :
  length x = 6%nat →
  (∃ y, swap_digits x = Ok y ∧
        swap_digits ((λ d, (d + 7) `mod` 10) <$> x)
        = Ok ((λ d, (d + 7) `mod` 10) <$> y) ∧
        swap_digits ((λ d, (d - 7 + 10) `mod` 10) <$> x)
        = Ok ((λ d, (d - 7 + 10) `mod` 10) <$> y) ∧
        swap_digits ((λ d, (d + 3) `mod` 10) <$> x)
        = Ok ((λ d, (d + 3) `mod` 10) <$> y)) ∧
  (∀ s, encrypt_number s = encrypt_number_swap_first s) ∧
  (∀ s, decrypt_number s = decrypt_number_shift_first s).
Proof.
  intros Hx. split_and!.
  - exists (spec_swap x). rewrite !swap_digits_fmap, swap_digits_six by done.
    by split_and!.
  - intros s. unfold encrypt_number, encrypt_number_swap_first.
    destruct (accepted s); cbn [negb]; [|done].
    destruct (mapM int_char s) as [ds|e]; cbn [mbind res_bind]; [|done].
    rewrite swap_digits_fmap. by destruct (swap_digits ds).
  - intros s. unfold decrypt_number, decrypt_number_shift_first.
    destruct (accepted s); cbn [negb]; [|done].
    destruct (mapM int_char s) as [ds|e]; cbn [mbind res_bind]; [|done].
    rewrite swap_digits_fmap. by destruct (swap_digits ds).
Qed.

Lemma shift_commutes_with_swap_witness :
  length [1; 2; 3; 4; 5; 6] = 6%nat ∧
  (∃ y, swap_digits [1; 2; 3; 4; 5; 6] = Ok y ∧
        swap_digits ((λ d, (d + 7) `mod` 10) <$> [1; 2; 3; 4; 5; 6])
        = Ok ((λ d, (d + 7) `mod` 10) <$> y) ∧
        swap_digits ((λ d, (d - 7 + 10) `mod` 10) <$> [1; 2; 3; 4; 5; 6])
        = Ok ((λ d, (d - 7 + 10) `mod` 10) <$> y) ∧
        swap_digits ((λ d, (d + 3) `mod` 10) <$> [1; 2; 3; 4; 5; 6])
        = Ok ((λ d, (d + 3) `mod` 10) <$> y)) ∧
  (∀ s, encrypt_number s = encrypt_number_swap_first s) ∧
  (∀ s, decrypt_number s = decrypt_number_shift_first s).
Proof.
  split; [reflexivity|].
  apply (shift_commutes_with_swap [1; 2; 3; 4; 5; 6]). reflexivity.
Defined.

(** * Further properties of the code *)

(** ** [swap_digits] on lists of any length *)

(** X1. [swap_digits] returns exactly on lists of at least six items; on a
    shorter list, the empty one included, it raises [IndexError]. *)
Theorem swap_digits_returns_iff {A} (x : list A) :
  ((∃ y, swap_digits x = Ok y) ↔ (6 ≤ length x)%nat) ∧
  (swap_digits x = Raise IndexError ↔ (length x < 6)%nat).
Proof.
  destruct x as [|x0 [|x1 [|x2 [|x3 [|x4 [|x5 x]]]]]]; cbn [length];
    (split; split;
     [ intros [y Hy]; first [discriminate Hy | lia]
     | intros H; first [lia | by eexists]
     | intros H; first [discriminate H | lia]
     | intros H; first [lia | reflexivity] ]).
Qed.

(** X2. On a list longer than six items the first six are exchanged as on a
    six-item list and the items after them stay where they are. *)
Theorem swap_digits_prefix {A} (x rest : list A) :
  length x = 6%nat → swap_digits (x ++ rest) = Ok (spec_swap x ++ rest).
Proof.
  intros (x0 & x1 & x2 & x3 & x4 & x5 & ->)%length_six_inv. reflexivity.
Qed.

Lemma swap_digits_prefix_witness :
  length [1; 2; 3; 4; 5; 6] = 6%nat ∧
  swap_digits ([1; 2; 3; 4; 5; 6] ++ [7; 8])
  = Ok (spec_swap [1; 2; 3; 4; 5; 6] ++ [7; 8]).
Proof.
  split; [reflexivity|].
  apply (swap_digits_prefix [1; 2; 3; 4; 5; 6] [7; 8]). reflexivity.
Defined.

(** X3. Whenever [swap_digits] returns, the result has the length of the
    argument, holds the same items up to order, and is sent back to the
    argument by a second call. *)
Theorem swap_digits_returned {A} (x y : list A) :
  swap_digits x = Ok y →
  length y = length x ∧ y ≡ₚ x ∧ swap_digits y = Ok x.
Proof.
  destruct x as [|x0 [|x1 [|x2 [|x3 [|x4 [|x5 x]]]]]]; try discriminate.
  intros [= <-]. split_and!; [reflexivity| |reflexivity].
  apply (Permutation_app_tail x
           (l:=[x2; x3; x0; x1; x5; x4]) (l':=[x0; x1; x2; x3; x4; x5])).
  transitivity ([x2; x3; x0; x1] ++ [x4; x5]).
  { apply (Permutation_app_head [x2; x3; x0; x1]), perm_swap. }
  apply (Permutation_app_tail [x4; x5]
           (l:=[x2; x3; x0; x1]) (l':=[x0; x1; x2; x3])).
  apply (Permutation_app_comm [x2; x3] [x0; x1]).
Qed.

Lemma swap_digits_returned_witness :
  swap_digits [1; 2; 3; 4; 5; 6; 7] = Ok [3; 4; 1; 2; 6; 5; 7] ∧
  length [3; 4; 1; 2; 6; 5; 7] = length [1; 2; 3; 4; 5; 6; 7] ∧
  [3; 4; 1; 2; 6; 5; 7] ≡ₚ [1; 2; 3; 4; 5; 6; 7] ∧
  swap_digits [3; 4; 1; 2; 6; 5; 7] = Ok [1; 2; 3; 4; 5; 6; 7].
Proof.
  split; [reflexivity|].
  apply (swap_digits_returned [1; 2; 3; 4; 5; 6; 7] [3; 4; 1; 2; 6; 5; 7]).
  reflexivity.
Defined.

(** ** [swap_digits] on the store, whatever the length *)

Lemma exchange_insert_raise {A} (h : gmap Heap.loc (list A)) r l i j e :
  getitem l j = Raise e →
  Heap.exchange r i j (<[r:=l]> h) = Some (Raise e, <[r:=l]> h).
Proof.
  intros Hj. unfold Heap.exchange, mbind, Heap.cmd_bind.
  by rewrite list_get_insert, Hj.
Qed.

(** One command of [Heap.swap_digits] on the copy, returning or raising. *)
Ltac exchange_step :=
  unfold mbind at 1, Heap.cmd_bind at 1;
  first [ erewrite exchange_insert by reflexivity
        | erewrite exchange_insert_raise by reflexivity ].

(** X4. Whatever the length of the caller's list, and whether the call
    returns or raises [IndexError] part of the way, [swap_digits] ends as
    the swap on values does, leaves every list of the store as it was, the
    caller's included, and adds one new list and no more. *)
Theorem heap_swap_digits_frame {A} (h : gmap Heap.loc (list A)) x l :
  h !! x = Some l →
  ∃ h', Heap.swap_digits x h
        = Some ((λ _, fresh (dom h)) <$> swap_digits l, h') ∧
        h ⊆ h' ∧ h' !! x = Some l ∧
        dom h' = {[fresh (dom h)]} ∪ dom h.
Proof.
  intros Hx. pose proof (fresh_loc_unused h) as Hr.
  assert (Hne : fresh (dom h) ≠ x) by congruence.
  assert (Hfin : ∀ (out : res Heap.loc) l',
            ∃ h', Some (out, <[fresh (dom h):=l']> h) = Some (out, h') ∧
                  h ⊆ h' ∧ h' !! x = Some l ∧
                  dom h' = {[fresh (dom h)]} ∪ dom h).
  { intros out l'. eexists. split; [reflexivity|]. split_and!.
    - by apply insert_subseteq.
    - by rewrite lookup_insert_ne.
    - apply dom_insert_L. }
  unfold Heap.swap_digits, mbind at 1, Heap.cmd_bind at 1.
  unfold Heap.list_copy. rewrite Hx. cbn zeta.
  destruct l as [|x0 [|x1 [|x2 [|x3 [|x4 [|x5 l]]]]]];
    repeat exchange_step; apply Hfin.
Qed.

Lemma heap_swap_digits_frame_witness :
  let h : gmap Heap.loc (list Z) := {[ 1%positive := [1; 2; 3; 4] ]} in
  h !! 1%positive = Some [1; 2; 3; 4] ∧
  ∃ h', Heap.swap_digits 1%positive h
        = Some ((λ _, fresh (dom h)) <$> swap_digits [1; 2; 3; 4], h') ∧
        h ⊆ h' ∧ h' !! 1%positive = Some [1; 2; 3; 4] ∧
        dom h' = {[fresh (dom h)]} ∪ dom h.
Proof.
  intros h.
  assert (Hx : h !! 1%positive = Some [1; 2; 3; 4]) by reflexivity.
  split; [exact Hx|].
  exact (heap_swap_digits_frame h 1%positive [1; 2; 3; 4] Hx).
Defined.

(** ** The two directions on every input *)

Lemma int_char_Ok c v : int_char c = Ok v ↔ Unicode.decimal c = Some v.
Proof.
  unfold int_char. destruct (Unicode.decimal c); split; congruence.
Qed.

Lemma int_char_Raise c e :
  int_char c = Raise e ↔ e = ValueError ∧ no_decimal c.
Proof.
  unfold int_char, no_decimal. destruct (Unicode.decimal c); split;
    [discriminate | intros [_ ?]; discriminate
    | by intros [= <-] | by intros [-> _] ].
Qed.

Lemma mapM_int_char_raise s :
  mapM int_char s = Raise ValueError ↔ Exists no_decimal s.
Proof.
  induction s as [|c s IH]; [split; [discriminate|by intros ?%Exists_nil]|].
  rewrite Exists_cons, <- IH. cbn [mapM].
  destruct (int_char c) as [v|e] eqn:Hc; cbn [mbind res_bind].
  - apply int_char_Ok in Hc.
    destruct (mapM int_char s) as [ds|e]; cbn [mbind res_bind mret res_ret].
    + split; [discriminate|]. unfold no_decimal. intros [?|?]; congruence.
    + split; [by right|]. unfold no_decimal. intros [?|?]; congruence.
  - apply int_char_Raise in Hc as [-> Hc]. split; [by left|done].
Qed.

Lemma mapM_int_char_Ok s ds :
  mapM int_char s = Ok ds →
  length ds = length s ∧ Forall digit ds
  ∧ Forall (λ c, Unicode.is_digit c = true) s.
Proof.
  revert ds. induction s as [|c s IH]; intros ds; cbn [mapM].
  - intros [= <-]. by split_and!.
  - destruct (int_char c) as [v|e] eqn:Hc; cbn [mbind res_bind]; [|discriminate].
    apply int_char_Ok in Hc.
    destruct (mapM int_char s) as [ds'|e]; cbn [mbind res_bind mret res_ret];
      [|discriminate].
    intros [= <-]. destruct (IH ds' eq_refl) as (Hlen & Hds & Hs).
    split_and!; [by cbn; rewrite Hlen| |].
    + apply Forall_cons. split; [|done].
      by apply (decimal_in_digit Unicode.decimal_zeros c).
    + apply Forall_cons. split; [|done]. unfold Unicode.is_digit. by rewrite Hc.
Qed.

Lemma accepted_decimal s ds :
  length s = 6%nat → mapM int_char s = Ok ds → accepted s = true.
Proof.
  intros Hlen (_ & _ & Hs)%mapM_int_char_Ok. by apply accepted_unicode_digit6.
Qed.

(** Both directions on six characters with decimal values [ds]. *)
Lemma encrypt_number_decimal s ds :
  length s = 6%nat → mapM int_char s = Ok ds →
  encrypt_number s = Ok (Some (render_digits (spec_swap (shift7 <$> ds)))).
Proof.
  intros Hlen Hds. unfold encrypt_number.
  rewrite (accepted_decimal s ds), Hds by done. cbn [negb mbind res_bind].
  destruct (mapM_int_char_Ok s ds Hds) as (Hl & Hdig & _).
  rewrite swap_digits_six by (by rewrite length_fmap, Hl).
  cbn [mbind res_bind mret res_ret]. rewrite str_join_digits; [done|].
  apply spec_swap_Forall, Forall_fmap, Forall_true. intros d. apply shift7_digit.
Qed.

Lemma decrypt_number_decimal s ds :
  length s = 6%nat → mapM int_char s = Ok ds →
  decrypt_number s = Ok (Some (render_digits (unshift7 <$> spec_swap ds))).
Proof.
  intros Hlen Hds. unfold decrypt_number.
  rewrite (accepted_decimal s ds), Hds by done. cbn [negb mbind res_bind].
  destruct (mapM_int_char_Ok s ds Hds) as (Hl & Hdig & _).
  rewrite swap_digits_six by (by rewrite Hl).
  cbn [mbind res_bind mret res_ret]. rewrite str_join_digits; [done|].
  apply Forall_fmap, Forall_true. intros d. apply unshift7_digit.
Qed.

(** X5. Each direction raises [ValueError] exactly when the input passes
    the guard (six characters that [str.isdigit] takes) and holds a
    character without a decimal value; neither ever raises
    [IndexError]. *)
Theorem value_error_iff s :
  (encrypt_number s = Raise ValueError
   ↔ unicode_digit6 s ∧ Exists no_decimal s) ∧
  (decrypt_number s = Raise ValueError
   ↔ unicode_digit6 s ∧ Exists no_decimal s) ∧
  encrypt_number s ≠ Raise IndexError ∧
  decrypt_number s ≠ Raise IndexError.
Proof.
  rewrite <- accepted_unicode_digit6, <- mapM_int_char_raise.
  split_and!.
  - unfold encrypt_number. destruct (accepted s) eqn:Hacc; cbn [negb].
    + apply accepted_unicode_digit6 in Hacc as [Hlen _].
      destruct (mapM int_char s) as [ds|e] eqn:Hds; cbn [mbind res_bind].
      * pose proof (encrypt_number_decimal s ds Hlen Hds) as Henc.
        unfold encrypt_number in Henc.
        rewrite (accepted_decimal s ds), Hds in Henc by done.
        cbn [negb mbind res_bind] in Henc. rewrite Henc.
        split; [discriminate|intros [_ ?]; discriminate].
      * split; [by intros [= ->]|by intros [_ [= ->]]].
    + split; [discriminate|intros [? _]; discriminate].
  - unfold decrypt_number. destruct (accepted s) eqn:Hacc; cbn [negb].
    + apply accepted_unicode_digit6 in Hacc as [Hlen _].
      destruct (mapM int_char s) as [ds|e] eqn:Hds; cbn [mbind res_bind].
      * pose proof (decrypt_number_decimal s ds Hlen Hds) as Hdec.
        unfold decrypt_number in Hdec.
        rewrite (accepted_decimal s ds), Hds in Hdec by done.
        cbn [negb mbind res_bind] in Hdec. rewrite Hdec.
        split; [discriminate|intros [_ ?]; discriminate].
      * split; [by intros [= ->]|by intros [_ [= ->]]].
    + split; [discriminate|intros [? _]; discriminate].
  - destruct (encrypt_number_outcome s) as [->|[(t & -> & _)| ->]]; discriminate.
  - destruct (decrypt_number_outcome s) as [->|[(t & -> & _)| ->]]; discriminate.
Qed.

(** X6. Whenever either direction returns a string, that string is six
    ASCII decimal digits, also when the input was written with digits of
    another script. *)
Theorem returned_text_valid6 s t :
  encrypt_number s = Ok (Some t) ∨ decrypt_number s = Ok (Some t) →
  valid6 t.
Proof.
  intros [H|H].
  - destruct (encrypt_number_outcome s) as [E|[(t' & E & Ht)|E]];
      rewrite E in H; try discriminate. by injection H as <-.
  - destruct (decrypt_number_outcome s) as [E|[(t' & E & Ht)|E]];
      rewrite E in H; try discriminate. by injection H as <-.
Qed.

Lemma returned_text_valid6_witness :
  (encrypt_number arabic_indic_123456 = Ok (Some (of_string "018932")) ∨
   decrypt_number arabic_indic_123456 = Ok (Some (of_string "018932"))) ∧
  valid6 (of_string "018932").
Proof.
  assert (H : encrypt_number arabic_indic_123456 = Ok (Some (of_string "018932")) ∨
              decrypt_number arabic_indic_123456 = Ok (Some (of_string "018932")))
    by (left; vm_compute; reflexivity).
  split; [exact H|].
  exact (returned_text_valid6 arabic_indic_123456 (of_string "018932") H).
Defined.

(** X7. On six characters with decimal values [ds], of any script, each
    direction returns what it returns on the ASCII spelling of [ds]; so
    decrypting the encryption gives back the ASCII spelling, not the
    characters that were entered. *)
Theorem decimal_digits_normalised s ds :
  length s = 6%nat → mapM int_char s = Ok ds →
  encrypt_number s = encrypt_number (render_digits ds) ∧
  decrypt_number s = decrypt_number (render_digits ds) ∧
  ∃ t, encrypt_number s = Ok (Some t) ∧
       decrypt_number t = Ok (Some (render_digits ds)).
Proof.
  intros Hlen Hds. destruct (mapM_int_char_Ok s ds Hds) as (Hl & Hdig & _).
  assert (Hv : valid6 (render_digits ds))
    by (apply render_digits_valid6; [by rewrite Hl|done]).
  rewrite (encrypt_number_decimal s ds), (decrypt_number_decimal s ds) by done.
  rewrite encrypt_number_valid6, decrypt_number_valid6 by done.
  unfold spec_encrypt, spec_decrypt. rewrite parse_render by done.
  split_and!; [done..|]. eexists. split; [done|].
  rewrite <- (parse_render ds) at 1 by done.
  fold (spec_encrypt (render_digits ds)).
  rewrite decrypt_number_valid6 by (by apply spec_encrypt_valid6).
  by rewrite spec_decrypt_encrypt.
Qed.

Lemma decimal_digits_normalised_witness :
  length arabic_indic_123456 = 6%nat ∧
  mapM int_char arabic_indic_123456 = Ok [1; 2; 3; 4; 5; 6] ∧
  encrypt_number arabic_indic_123456
  = encrypt_number (render_digits [1; 2; 3; 4; 5; 6]) ∧
  decrypt_number arabic_indic_123456
  = decrypt_number (render_digits [1; 2; 3; 4; 5; 6]) ∧
  ∃ t, encrypt_number arabic_indic_123456 = Ok (Some t) ∧
       decrypt_number t = Ok (Some (render_digits [1; 2; 3; 4; 5; 6])).
Proof.
  split; [reflexivity|]. split; [vm_compute; reflexivity|].
  apply (decimal_digits_normalised arabic_indic_123456 [1; 2; 3; 4; 5; 6]);
    [reflexivity | vm_compute; reflexivity].
Defined.

(** ** The transform as a map on six-digit strings *)

(** X8. On strings of six ASCII decimal digits each direction is
    one-to-one: two inputs with the same result are the same input. *)
Theorem transform_injective s t :
  valid6 s → valid6 t →
  (encrypt_number s = encrypt_number t → s = t) ∧
  (decrypt_number s = decrypt_number t → s = t).
Proof.
  intros Hs Ht. split.
  - rewrite !encrypt_number_valid6 by done. intros [= H].
    by rewrite <- (spec_decrypt_encrypt s), <- (spec_decrypt_encrypt t), H.
  - rewrite !decrypt_number_valid6 by done. intros [= H].
    by rewrite <- (spec_encrypt_decrypt s), <- (spec_encrypt_decrypt t), H.
Qed.

Lemma transform_injective_witness :
  valid6 (of_string "123456") ∧ valid6 (of_string "123456") ∧
  (encrypt_number (of_string "123456") = encrypt_number (of_string "123456")
   → of_string "123456" = of_string "123456") ∧
  (decrypt_number (of_string "123456") = decrypt_number (of_string "123456")
   → of_string "123456" = of_string "123456").
Proof.
  assert (H : valid6 (of_string "123456"))
    by (vm_compute; repeat constructor; discriminate).
  split; [exact H|]. split; [exact H|].
  exact (transform_injective (of_string "123456") (of_string "123456") H H).
Defined.

Lemma shift7_twice d : shift7 (shift7 d) = shift4 d.
Proof.
  unfold shift7, shift4. rewrite Z.add_mod_idemp_l by lia.
  replace (d + 7 + 7) with (d + 4 + 1 * 10) by lia. by rewrite Z.mod_add.
Qed.

Lemma shift4_digit d : digit (shift4 d).
Proof. unfold digit, shift4. pose proof (Z.mod_pos_bound (d + 4) 10). lia. Qed.

Lemma shift4_moves d : digit d → shift4 d ≠ d.
Proof.
  unfold digit. intros H E.
  assert (Hc : d = 0 ∨ d = 1 ∨ d = 2 ∨ d = 3 ∨ d = 4 ∨
               d = 5 ∨ d = 6 ∨ d = 7 ∨ d = 8 ∨ d = 9) by lia.
  destruct Hc as [->|[->|[->|[->|[->|[->|[->|[->|[->| ->]]]]]]]]];
    discriminate E.
Qed.

Lemma spec_encrypt_twice s :
  valid6 s →
  spec_encrypt (spec_encrypt s) = render_digits (shift4 <$> parse_digits s).
Proof.
  intros [_ Hall]. unfold spec_encrypt at 1. unfold spec_encrypt.
  rewrite parse_render
    by (apply spec_swap_Forall, Forall_fmap, Forall_true; intros d; apply shift7_digit).
  rewrite spec_swap_fmap, spec_swap_involutive, <- list_fmap_compose.
  f_equal. apply list_fmap_ext. intros _ d _. apply shift7_twice.
Qed.

(** X9. Encrypting twice is the shift of every digit by four, with no
    swap left: on six ASCII decimal digits [s], the encryption of the
    encryption of [s] is [s] with each digit [d] replaced by
    [(d + 4) mod 10], in place. *)
Theorem encrypt_number_twice s :
  valid6 s →
  ∃ t, encrypt_number s = Ok (Some t) ∧
       encrypt_number t
       = Ok (Some (render_digits (shift4 <$> parse_digits s))).
Proof.
  intros Hs. exists (spec_encrypt s). split; [by apply encrypt_number_valid6|].
  rewrite encrypt_number_valid6 by (by apply spec_encrypt_valid6).
  by rewrite spec_encrypt_twice.
Qed.

Lemma encrypt_number_twice_witness :
  valid6 (of_string "123456") ∧
  ∃ t, encrypt_number (of_string "123456") = Ok (Some t) ∧
       encrypt_number t
       = Ok (Some (render_digits (shift4 <$> parse_digits (of_string "123456")))).
Proof.
  split; [vm_compute; repeat constructor; discriminate|].
  apply (encrypt_number_twice (of_string "123456")).
  vm_compute; repeat constructor; discriminate.
Defined.

(** X10. Neither direction leaves a valid input as it is: on six ASCII
    decimal digits the returned string always differs from the input. *)
Theorem transform_moves s :
  valid6 s →
  encrypt_number s ≠ Ok (Some s) ∧ decrypt_number s ≠ Ok (Some s).
Proof.
  intros Hs.
  assert (Hfix : spec_encrypt s ≠ s).
  { intros E. pose proof (spec_encrypt_twice s Hs) as H2. rewrite !E in H2.
    destruct Hs as [Hlen Hall].
    destruct s as [|c s]; [discriminate Hlen|].
    apply Forall_cons in Hall as [Hc _].
    apply (f_equal parse_digits) in H2.
    rewrite parse_render in H2
      by (apply Forall_fmap, Forall_true; intros d; apply shift4_digit).
    injection H2 as H0 _. symmetry in H0. revert H0. apply shift4_moves.
    unfold ascii_digit in Hc. unfold digit. lia. }
  split.
  - rewrite encrypt_number_valid6 by done. by intros [= E].
  - rewrite decrypt_number_valid6 by done. intros [= E]. apply Hfix.
    by rewrite <- E at 1; rewrite spec_encrypt_decrypt.
Qed.

Lemma transform_moves_witness :
  valid6 (of_string "555555") ∧
  encrypt_number (of_string "555555") ≠ Ok (Some (of_string "555555")) ∧
  decrypt_number (of_string "555555") ≠ Ok (Some (of_string "555555")).
Proof.
  split; [vm_compute; repeat constructor; discriminate|].
  apply (transform_moves (of_string "555555")).
  vm_compute; repeat constructor; discriminate.
Defined.

(** ** The pages *)

Lemma valid6_truthy t : valid6 t → Pages.truthy (Some t) = true.
Proof. intros [Hlen _]. by destruct t. Qed.

(** X11. What a handler does is fixed by what the transform did: [None]
    opens the error box, a returned string opens the result dialog on
    that very string (the truth test never takes a result for a failure),
    and in both cases the entry field is emptied; an exception ends the
    handler with no dialog opened and the field as the user left it. *)
Theorem handlers_follow_transform entry :
  Pages.perform_encrypt entry =
    match encrypt_number entry with
    | Ok None =>
        Pages.Run (Ok ())
          [Pages.MessageCritical "Input Error" "Please enter a 6-digit number."] []
    | Ok (Some t) => Pages.Run (Ok ()) [Pages.ResultDialog (Some t)] []
    | Raise e => Pages.Run (Raise e) [] entry
    end ∧
  Pages.perform_decrypt entry =
    match decrypt_number entry with
    | Ok None =>
        Pages.Run (Ok ())
          [Pages.MessageCritical "Input Error" "Please enter a 6-digit number."] []
    | Ok (Some t) => Pages.Run (Ok ()) [Pages.ResultDialog (Some t)] []
    | Raise e => Pages.Run (Raise e) [] entry
    end.
Proof.
  unfold Pages.perform_encrypt, Pages.perform_decrypt. split.
  - destruct (encrypt_number_outcome entry) as [->|[(t & -> & Ht)| ->]];
      [done| |done]. by rewrite valid6_truthy.
  - destruct (decrypt_number_outcome entry) as [->|[(t & -> & Ht)| ->]];
      [done| |done]. by rewrite valid6_truthy.
Qed.

(** X12. Round trip through the two pages: for six ASCII decimal digits
    typed in the encryption page, the result dialog shows a string which,
    typed in the decryption page, makes its result dialog show the digits
    first typed; no error box opens on the way, and each field is emptied. *)
Theorem pages_round_trip s :
  valid6 s →
  ∃ t, Pages.perform_encrypt s
       = Pages.Run (Ok ()) [Pages.ResultDialog (Some t)] [] ∧
       Pages.perform_decrypt t
       = Pages.Run (Ok ()) [Pages.ResultDialog (Some s)] [].
Proof.
  intros Hs. exists (spec_encrypt s).
  pose proof (spec_encrypt_valid6 s Hs) as Ht.
  unfold Pages.perform_encrypt, Pages.perform_decrypt.
  rewrite encrypt_number_valid6, decrypt_number_valid6 by done.
  rewrite spec_decrypt_encrypt by done.
  by rewrite !valid6_truthy.
Qed.

Lemma pages_round_trip_witness :
  valid6 (of_string "090807") ∧
  ∃ t, Pages.perform_encrypt (of_string "090807")
       = Pages.Run (Ok ()) [Pages.ResultDialog (Some t)] [] ∧
       Pages.perform_decrypt t
       = Pages.Run (Ok ()) [Pages.ResultDialog (Some (of_string "090807"))] [].
Proof.
  split; [vm_compute; repeat constructor; discriminate|].
  apply (pages_round_trip (of_string "090807")).
  vm_compute; repeat constructor; discriminate.
Defined.

(** ** Window placement *)

Lemma half_bounds a : 0 ≤ a - 2 * (a `div` 2) ≤ 1.
Proof.
  pose proof (Z.mod_pos_bound a 2). pose proof (Z.div_mod a 2). lia.
Qed.

(** X13. [center_on_parent] on a widget with a parent puts the widget so
    that, on each axis, the gap after it inside the parent's window is
    the gap before it or one pixel more; this also holds when the widget
    is larger than the window, where both gaps are negative. *)
Theorem center_on_parent_gaps w p :
  Utils.parent_window_geometry w = Some p →
  let '(x, y) := Utils.center_on_parent w in
  let before_x := x - Utils.rect_x p in
  let after_x := Utils.rect_x p + Utils.rect_width p - (x + Utils.width w) in
  let before_y := y - Utils.rect_y p in
  let after_y := Utils.rect_y p + Utils.rect_height p - (y + Utils.height w) in
  before_x ≤ after_x ≤ before_x + 1 ∧ before_y ≤ after_y ≤ before_y + 1.
Proof.
  intros Hp. unfold Utils.center_on_parent. rewrite Hp. cbn zeta.
  pose proof (half_bounds (Utils.rect_width p - Utils.width w)).
  pose proof (half_bounds (Utils.rect_height p - Utils.height w)).
  lia.
Qed.

Lemma center_on_parent_gaps_witness :
  let p := Utils.Rect 100 50 400 300 in
  let w := Utils.Widget 401 200 (Some p) (Utils.Rect 0 0 1920 1080) in
  Utils.parent_window_geometry w = Some p ∧
  let '(x, y) := Utils.center_on_parent w in
  let before_x := x - Utils.rect_x p in
  let after_x := Utils.rect_x p + Utils.rect_width p - (x + Utils.width w) in
  let before_y := y - Utils.rect_y p in
  let after_y := Utils.rect_y p + Utils.rect_height p - (y + Utils.height w) in
  before_x ≤ after_x ≤ before_x + 1 ∧ before_y ≤ after_y ≤ before_y + 1.
Proof.
  intros p w. split; [reflexivity|].
  exact (center_on_parent_gaps w p eq_refl).
Defined.

(** X14. [center_on_screen], and [center_on_parent] on a widget of the same
    size and screen without a parent, which falls back to it, place the
    widget by the size of the screen's available area alone: the point
    does not depend on where that area starts, and measured from the
    origin the gap after the widget is the gap before it or one pixel
    more. *)
Theorem center_on_screen_gaps w :
  let s := Utils.screen_available_geometry w in
  let '(x, y) := Utils.center_on_screen w in
  Utils.center_on_parent
    (Utils.Widget (Utils.width w) (Utils.height w) None s) = (x, y) ∧
  (∀ x0 y0,
     Utils.center_on_screen
       (Utils.Widget (Utils.width w) (Utils.height w)
          (Utils.parent_window_geometry w)
          (Utils.Rect x0 y0 (Utils.rect_width s) (Utils.rect_height s)))
     = (x, y)) ∧
  x ≤ Utils.rect_width s - (x + Utils.width w) ≤ x + 1 ∧
  y ≤ Utils.rect_height s - (y + Utils.height w) ≤ y + 1.
Proof.
  unfold Utils.center_on_parent, Utils.center_on_screen. cbn zeta.
  pose proof (half_bounds
    (Utils.rect_width (Utils.screen_available_geometry w) - Utils.width w)).
  pose proof (half_bounds
    (Utils.rect_height (Utils.screen_available_geometry w) - Utils.height w)).
  split_and!; [done | done | lia..].
Qed.

(** ** Two calls on the store *)

(** X15. Swapping the result of a swap gives a list with the items of the
    caller's list in their first order, but it is a third list object:
    neither the caller's nor the one the first call returned, both of
    which keep their items. *)
Theorem heap_swap_digits_twice {A} (h : gmap Heap.loc (list A)) x l :
  h !! x = Some l → length l = 6%nat →
  ∃ r1 h1 r2 h2,
    Heap.swap_digits x h = Some (Ok r1, h1) ∧
    Heap.swap_digits r1 h1 = Some (Ok r2, h2) ∧
    r2 ≠ x ∧ r2 ≠ r1 ∧ r1 ≠ x ∧
    h2 !! r2 = Some l ∧ h2 !! x = Some l ∧ h2 !! r1 = Some (spec_swap l).
Proof.
  intros Hx Hlen.
  set (r1 := fresh (dom h)). set (h1 := <[r1:=spec_swap l]> h).
  set (r2 := fresh (dom h1)). set (h2 := <[r2:=l]> h1).
  assert (Hr1 : h !! r1 = None) by apply fresh_loc_unused.
  assert (Hr2 : h1 !! r2 = None) by apply fresh_loc_unused.
  assert (H1 : h1 !! r1 = Some (spec_swap l)) by apply lookup_insert_eq.
  assert (Hx1 : h1 !! x = Some l)
    by (unfold h1; rewrite lookup_insert_ne; [done|congruence]).
  exists r1, h1, r2, h2. split_and!; try congruence.
  - apply (heap_swap_digits_ok h x l); [done|]. by apply swap_digits_six.
  - apply (heap_swap_digits_ok h1 r1 (spec_swap l)); [done|].
    rewrite swap_digits_six by (by rewrite spec_swap_length).
    by rewrite spec_swap_involutive.
  - apply lookup_insert_eq.
  - unfold h2. rewrite lookup_insert_ne; [done|congruence].
  - unfold h2. rewrite lookup_insert_ne; [done|congruence].
Qed.

Lemma heap_swap_digits_twice_witness :
  let h : gmap Heap.loc (list Z) := {[ 5%positive := [1; 2; 3; 4; 5; 6] ]} in
  h !! 5%positive = Some [1; 2; 3; 4; 5; 6] ∧
  length [1; 2; 3; 4; 5; 6] = 6%nat ∧
  ∃ r1 h1 r2 h2,
    Heap.swap_digits 5%positive h = Some (Ok r1, h1) ∧
    Heap.swap_digits r1 h1 = Some (Ok r2, h2) ∧
    r2 ≠ 5%positive ∧ r2 ≠ r1 ∧ r1 ≠ 5%positive ∧
    h2 !! r2 = Some [1; 2; 3; 4; 5; 6] ∧
    h2 !! 5%positive = Some [1; 2; 3; 4; 5; 6] ∧
    h2 !! r1 = Some (spec_swap [1; 2; 3; 4; 5; 6]).
Proof.
  intros h.
  assert (Hx : h !! 5%positive = Some [1; 2; 3; 4; 5; 6]) by reflexivity.
  split; [exact Hx|]. split; [reflexivity|].
  exact (heap_swap_digits_twice h 5%positive [1; 2; 3; 4; 5; 6] Hx eq_refl).
Defined.
